(** * src/tools/singlejar/port.cc: positioned read on Windows

    The file holds one function, [pread], the emulation of the POSIX
    positioned read on top of the Win32 [ReadFile] primitive.  This
    development embeds that function over an explicit model of the
    process state and of the two host primitives it calls, and states
    the properties of the specification about it. *)

From stdpp Require Import base option list gmap strings.
From Stdlib Require Import ZArith Lia Init.Byte.

Local Open Scope Z_scope.

(** ** Machine integers and Win32 data *)

Module Win32.

(** [DWORD] is an unsigned 32-bit integer; a conversion to it keeps the
    low 32 bits. *)
Definition DWORD_modulus : Z := 2 ^ 32.
Definition to_DWORD (z : Z) : Z := z mod DWORD_modulus.

(** Modelled from the spec: [ssize_t] is declared in port.h, which is not
    part of the sources; the specification gives the result of the
    operation as a signed 64-bit integer ([-> i64]).  A conversion to it
    wraps into [-2^63, 2^63). *)
Definition ssize_bits : Z := 64.
Definition to_ssize_t (z : Z) : Z :=
  (z + 2 ^ (ssize_bits - 1)) mod 2 ^ ssize_bits - 2 ^ (ssize_bits - 1).

(** A [HANDLE] is a pointer-sized value; [reinterpret_cast<HANDLE>] of the
    [intptr_t] returned by [_get_osfhandle] keeps its bits, so a handle is
    carried as that integer and the null handle is 0. *)
Abbreviation HANDLE := Z (only parsing).
Definition NULL : HANDLE := 0.
Definition INVALID_HANDLE_VALUE : HANDLE := -1.

(** The [OVERLAPPED] structure of <windows.h>: the position record of a
    read request. *)
Record OVERLAPPED : Type := mkOVERLAPPED {
  Internal : Z;
  InternalHigh : Z;
  Offset : Z;
  OffsetHigh : Z;
  hEvent : HANDLE
}.

(** [memset(&overlap, 0, sizeof(OVERLAPPED))] *)
Definition memset_zero : OVERLAPPED :=
  {| Internal := 0; InternalHigh := 0; Offset := 0; OffsetHigh := 0;
     hEvent := NULL |}.

(** [overlap.Offset = v], the assignment of a value to the 32-bit field. *)
Definition set_Offset (ov : OVERLAPPED) (v : Z) : OVERLAPPED :=
  {| Internal := Internal ov; InternalHigh := InternalHigh ov;
     Offset := to_DWORD v; OffsetHigh := OffsetHigh ov;
     hEvent := hEvent ov |}.

(** The byte position a request designates: the two 32-bit halves read as
    one 64-bit number. *)
Definition position (ov : OVERLAPPED) : Z :=
  Offset ov + OffsetHigh ov * DWORD_modulus.

(** The answer of [ReadFile]: the BOOL it returns, the value it stores
    through [lpNumberOfBytesRead], the contents of the caller's buffer
    afterwards and the host state afterwards. *)
Record ReadReply (W : Type) : Type := mkReadReply {
  success : bool;
  lpNumberOfBytesRead : Z;
  lpBuffer : list byte;
  host_after : W
}.
Arguments mkReadReply {W} _ _ _ _.
Arguments success {W} _.
Arguments lpNumberOfBytesRead {W} _.
Arguments lpBuffer {W} _.
Arguments host_after {W} _.

End Win32.
Import Win32.

(** ** The host environment *)

(** Modelled from the spec: [_get_osfhandle] and [ReadFile] belong to the
    host (C runtime and Win32), not to this repository, so both are
    parameters of the embedding.  The specification describes them as "a way
    to resolve an integer-style file descriptor to the platform's native
    file-object handle" and a synchronous read primitive that "takes handle,
    destination buffer, length, and a position record; returns transferred
    byte count or an explicit failure indicator".  The lookup reads the host
    state; the read acts on the host state and on the caller's buffer and
    on nothing else of the process ("no error-detail channel is populated").
    The position record is [None] for a null [lpOverlapped]. *)
Class Host : Type := {
  World : Type;
  host_get_osfhandle : World → Z → Z;
  host_ReadFile :
    World → HANDLE → list byte → Z → option OVERLAPPED → ReadReply World
}.

(** The calls a process makes to its host, as they are issued. *)
Inductive Request : Type :=
| Call_get_osfhandle (fd : Z)
| Call_ReadFile (hFile : HANDLE) (nNumberOfBytesToRead : Z)
                (lpOverlapped : option OVERLAPPED).

(** The [ReadFile] requests among the calls of a process: handle, byte
    count and position record of each. *)
Definition reads (l : list Request) : list (HANDLE * Z * option OVERLAPPED) :=
  omap (λ r, match r with
             | Call_ReadFile h n ov => Some (h, n, ov)
             | Call_get_osfhandle _ => None
             end) l.

Section Process.
Context {host : Host}.

(** The state [pread] runs in: the C runtime's [errno], the host state,
    the memory [buf] points to, and the host calls issued so far (oldest
    first).  A host primitive changes the host state and the buffer;
    [errno] is left to the code. *)
Record Process : Type := mkProcess {
  errno : Z;
  world : World;
  buffer : list byte;
  calls : list Request
}.

Definition M (A : Type) : Type := Process → A * Process.

#[export] Instance M_ret : MRet M := λ A a p, (a, p).
#[export] Instance M_bind : MBind M :=
  λ A B f m p, let '(a, p') := m p in f a p'.

Definition log (r : Request) (p : Process) : Process :=
  {| errno := errno p; world := world p; buffer := buffer p;
     calls := calls p ++ [r] |}.

(** [_get_osfhandle(fd)] *)
Definition _get_osfhandle (fd : Z) : M Z :=
  λ p, (host_get_osfhandle (world p) fd, log (Call_get_osfhandle fd) p).

(** [::ReadFile(hFile, buf, n, &ret, lpOverlapped)]: the result is the
    BOOL together with the new value of the [DWORD] behind
    [lpNumberOfBytesRead]. *)
Definition ReadFile (hFile : HANDLE) (n : Z) (ov : option OVERLAPPED)
  : M (bool * Z) :=
  λ p,
    let r := host_ReadFile (world p) hFile (buffer p) n ov in
    ((success r, to_DWORD (lpNumberOfBytesRead r)),
     {| errno := errno p; world := host_after r; buffer := lpBuffer r;
        calls := calls p ++ [Call_ReadFile hFile n ov] |}).

(** ** [pread]

<<
    ssize_t pread(int fd, void *buf, size_t count, off64_t offset) {
      DWORD ret = -1;
      HANDLE hFile = reinterpret_cast<HANDLE>(_get_osfhandle(fd));
      if (hFile) {
        OVERLAPPED overlap;
        memset(&overlap, 0, sizeof(OVERLAPPED));
        overlap.Offset = offset;
        if (!::ReadFile(hFile, buf, count, &ret, &overlap)) {
          return -1;
        }
      }
      return ret;
    }
>>
    [buf] is the buffer of the process state. *)
Definition pread (fd : Z) (count : Z) (offset : Z) : M Z :=
  let ret := to_DWORD (-1) in
  hFile ← _get_osfhandle fd;
  if negb (hFile =? NULL) then
    let overlap := memset_zero in
    let overlap := set_Offset overlap offset in
    '(ok, ret) ← ReadFile hFile (to_DWORD count) (Some overlap);
    if negb ok then mret (to_ssize_t (-1))
    else mret (to_ssize_t ret)
  else mret (to_ssize_t ret).

(** The position record the body above builds for [offset]: the zeroed
    structure with [Offset] assigned. *)
Definition overlap_for (offset : Z) : OVERLAPPED :=
  set_Offset memset_zero offset.

(** The answer of the host to the request [pread] issues on handle [h]. *)
Definition reply (p : Process) (h : HANDLE) (count offset : Z)
  : ReadReply World :=
  host_ReadFile (world p) h (buffer p) (to_DWORD count)
                (Some (overlap_for offset)).

End Process.

Arguments Process : clear implicits.
Arguments M : clear implicits.
Arguments reply {host} p h count offset.

(** ** A reference host

    One host, built from what the specification says of the platform: file
    objects with their bytes, their sequential read position and their
    access right, reached through handles, and a table from descriptors to
    handles. *)

Module SpecHost.

Record FileObject : Type := mkFileObject {
  content : list byte;
  cursor : Z;
  read_access : bool
}.

Record Env : Type := mkEnv {
  descriptors : gmap Z HANDLE;
  objects : gmap Z FileObject
}.

(** Modelled from the spec: the resolution of a descriptor to its native
    handle, absent from the sources; a descriptor that is not open resolves
    to [INVALID_HANDLE_VALUE]. *)
Definition resolve (w : Env) (fd : Z) : Z :=
  default INVALID_HANDLE_VALUE (descriptors w !! fd).

(** The bytes of [f] from position [pos] on, at most [n] of them. *)
Definition bytes_at (f : FileObject) (pos n : Z) : list byte :=
  take (Z.to_nat n) (drop (Z.to_nat pos) (content f)).

(** [data] stored at the start of the caller's buffer. *)
Definition store (data buf : list byte) : list byte :=
  data ++ drop (length data) buf.

Definition advance (f : FileObject) (n : Z) : FileObject :=
  {| content := content f; cursor := cursor f + n;
     read_access := read_access f |}.

Definition read_failure (w : Env) (buf : list byte) : ReadReply Env :=
  {| success := false; lpNumberOfBytesRead := 0; lpBuffer := buf;
     host_after := w |}.

(** Modelled from the spec: the read primitive of the host, absent from the
    sources.  It reports failure on a handle that names no file object and
    on a file object without read access.  With a position record it reads
    from that position and "does not mutate shared descriptor state";
    without one it reads from the sequential read position and advances it.
    Fewer bytes than asked for, none at all at or beyond the end of the
    file, is a short read and not a failure. *)
Definition native_read (w : Env) (h : HANDLE) (buf : list byte) (n : Z)
           (lpOverlapped : option OVERLAPPED) : ReadReply Env :=
  match objects w !! h with
  | Some f =>
      if read_access f then
        match lpOverlapped with
        | Some ov =>
            let data := bytes_at f (position ov) n in
            {| success := true;
               lpNumberOfBytesRead := Z.of_nat (length data);
               lpBuffer := store data buf;
               host_after := w |}
        | None =>
            let data := bytes_at f (cursor f) n in
            let moved := advance f (Z.of_nat (length data)) in
            {| success := true;
               lpNumberOfBytesRead := Z.of_nat (length data);
               lpBuffer := store data buf;
               host_after := {| descriptors := descriptors w;
                                objects := <[h := moved]> (objects w) |} |}
        end
      else read_failure w buf
  | None => read_failure w buf
  end.

#[export] Instance spec_host : Host :=
  {| World := Env;
     host_get_osfhandle := resolve;
     host_ReadFile := native_read |}.

(** A process that has descriptor [fd] open on the file object [f] under
    the non-null handle [h]. *)
Definition opened (p : Process spec_host) (fd : Z) (h : HANDLE)
           (f : FileObject) : Prop :=
  descriptors (world p) !! fd = Some h ∧ h ≠ NULL ∧
  objects (world p) !! h = Some f.

(** The scenario of the specification: one descriptor, 3, open for reading
    on a file of the ten bytes ABCDEFGHIJ. *)
Definition ten_bytes : FileObject :=
  {| content := String.list_byte_of_string "ABCDEFGHIJ"; cursor := 0;
     read_access := true |}.

Definition scenario_env : Env :=
  {| descriptors := {[ 3 := 420 ]}; objects := {[ 420 := ten_bytes ]} |}.

Definition scenario (buf : list byte) : Process spec_host :=
  {| errno := 0; world := scenario_env; buffer := buf; calls := [] |}.

(** A host in which descriptor 3 resolves to the null handle, the case
    the guard [if (hFile)] of [pread] is written for.  No file object
    stands behind it. *)
Definition null_env : Env :=
  {| descriptors := {[ 3 := NULL ]}; objects := ∅ |}.

Definition null_scenario (buf : list byte) : Process spec_host :=
  {| errno := 0; world := null_env; buffer := buf; calls := [] |}.

(** A caller's buffer of four bytes. *)
Definition buf4 : list byte := String.list_byte_of_string "....".

End SpecHost.
Import SpecHost.

(** ** Integer conversions *)

Lemma to_DWORD_range (z : Z) : 0 ≤ to_DWORD z < 2 ^ 32.
Proof. unfold to_DWORD, DWORD_modulus. apply Z.mod_pos_bound. lia. Qed.

Lemma to_DWORD_small (z : Z) : 0 ≤ z < 2 ^ 32 → to_DWORD z = z.
Proof. intros Hz. unfold to_DWORD, DWORD_modulus. by apply Z.mod_small. Qed.

Lemma to_DWORD_le (z : Z) : 0 ≤ z → to_DWORD z ≤ z.
Proof.
  intros Hz. unfold to_DWORD, DWORD_modulus. apply Z.mod_le; lia.
Qed.

Lemma to_ssize_t_small (z : Z) : - 2 ^ 63 ≤ z < 2 ^ 63 → to_ssize_t z = z.
Proof.
  intros Hz. unfold to_ssize_t, ssize_bits.
  replace (64 - 1) with 63 by lia.
  rewrite Z.mod_small; lia.
Qed.

Lemma to_ssize_t_DWORD (z : Z) : to_ssize_t (to_DWORD z) = to_DWORD z.
Proof.
  apply to_ssize_t_small. pose proof (to_DWORD_range z). lia.
Qed.

(** The initial value of [ret], [DWORD ret = -1], as [return ret] hands it
    back. *)
Lemma initial_ret_returned : to_ssize_t (to_DWORD (-1)) = 4294967295.
Proof. reflexivity. Qed.

(** The fields of the position record: the low 32 bits of the offset in
    [Offset], zero everywhere else. *)
Lemma overlap_for_fields (offset : Z) :
  overlap_for offset
  = {| Internal := 0; InternalHigh := 0; Offset := offset mod 2 ^ 32;
       OffsetHigh := 0; hEvent := NULL |}.
Proof. reflexivity. Qed.

Lemma position_overlap_for (offset : Z) :
  position (overlap_for offset) = offset mod 2 ^ 32.
Proof. rewrite overlap_for_fields. unfold position. cbn. lia. Qed.

(** ** The two paths of [pread], for every host *)

Section Paths.
Context {host : Host}.
Implicit Types (p : Process host) (fd count offset : Z).

Lemma reads_app (l k : list Request) : reads (l ++ k) = reads l ++ reads k.
Proof. apply omap_app. Qed.

Lemma pread_null_handle p fd count offset :
  host_get_osfhandle (world p) fd = NULL →
  pread fd count offset p
  = (to_ssize_t (to_DWORD (-1)), log (Call_get_osfhandle fd) p).
Proof.
  intros Hnull. unfold pread, mbind, M_bind, _get_osfhandle.
  rewrite Hnull. reflexivity.
Qed.

Lemma pread_open_handle p fd count offset :
  let h := host_get_osfhandle (world p) fd in
  let r := reply p h count offset in
  h ≠ NULL →
  pread fd count offset p
  = (if success r then to_ssize_t (to_DWORD (lpNumberOfBytesRead r))
     else to_ssize_t (-1),
     {| errno := errno p; world := host_after r; buffer := lpBuffer r;
        calls := calls p ++ [Call_get_osfhandle fd;
                             Call_ReadFile h (to_DWORD count)
                                           (Some (overlap_for offset))] |}).
Proof.
  intros h r Hh. subst r. unfold reply.
  unfold pread, mbind, M_bind, _get_osfhandle, ReadFile, log. fold h.
  destruct (h =? NULL) eqn:E; [apply Z.eqb_eq in E; contradiction|].
  cbn [negb fst snd errno world buffer calls].
  change (set_Offset memset_zero offset) with (overlap_for offset).
  rewrite <- app_assoc. cbn [app].
  destruct (success _); reflexivity.
Qed.

End Paths.

(** ** Properties of the emulated path, for every host *)

Section Emulation.
Context {host : Host}.
Implicit Types (p : Process host) (fd count offset : Z).

(** C3 (as amended): whenever the descriptor resolves to a non-null
    handle, [pread] issues exactly one read request after the lookup; its
    position record is zero in every field but [Offset], which holds the
    low 32 bits of the requested offset, and [OffsetHigh] stays 0.  The
    record designates position [offset mod 2^32], which is the requested
    offset exactly when the offset fits in 32 bits. *)
Theorem pread_request_position p fd count offset :
  host_get_osfhandle (world p) fd ≠ NULL →
  ∃ ov,
    calls (pread fd count offset p).2
    = calls p ++ [Call_get_osfhandle fd;
                  Call_ReadFile (host_get_osfhandle (world p) fd)
                                (to_DWORD count) (Some ov)]
    ∧ Internal ov = 0 ∧ InternalHigh ov = 0 ∧ hEvent ov = NULL
    ∧ Offset ov = offset mod 2 ^ 32 ∧ OffsetHigh ov = 0
    ∧ position ov = offset mod 2 ^ 32
    ∧ (0 ≤ offset < 2 ^ 32 → position ov = offset).
Proof.
  intros Hh. exists (overlap_for offset).
  rewrite (pread_open_handle p fd count offset Hh).
  pose proof (position_overlap_for offset) as Hpos.
  rewrite overlap_for_fields in *. cbn.
  repeat split; try reflexivity; try exact Hpos.
  intros Hsmall. rewrite Hpos. apply Z.mod_small. lia.
Qed.

(** C9: on the emulated path the byte count handed to the native read
    primitive is [count mod 2^32], the [size_t] argument cut down to a
    [DWORD]; for a [count] of 2^32 or more this is fewer bytes than the
    caller asked for. *)
Theorem pread_requested_count p fd count offset :
  host_get_osfhandle (world p) fd ≠ NULL →
  map (λ r, r.1.2) (reads (calls (pread fd count offset p).2))
  = map (λ r, r.1.2) (reads (calls p)) ++ [count mod 2 ^ 32]
  ∧ (2 ^ 32 ≤ count → count mod 2 ^ 32 < count).
Proof.
  intros Hh. split.
  - rewrite (pread_open_handle p fd count offset Hh). cbn [snd calls].
    rewrite reads_app, map_app. reflexivity.
  - intros Hbig. pose proof (Z.mod_pos_bound count (2 ^ 32)). lia.
Qed.

(** C10: when the resolved handle is null no read is requested, the
    buffer and the host are left as they were, and the value returned is
    the initial [DWORD] 0xFFFFFFFF widened to [ssize_t]: 4294967295,
    a positive number. *)
Theorem pread_null_handle_result p fd count offset :
  host_get_osfhandle (world p) fd = NULL →
  let '(result, p') := pread fd count offset p in
  reads (calls p') = reads (calls p)
  ∧ buffer p' = buffer p ∧ world p' = world p
  ∧ result = to_ssize_t (to_DWORD (-1))
  ∧ result = 4294967295 ∧ 0 < result.
Proof.
  intros Hnull. rewrite (pread_null_handle p fd count offset Hnull).
  cbn [log calls buffer world]. rewrite reads_app. cbn [reads omap app].
  rewrite app_nil_r, initial_ret_returned. repeat split; lia.
Qed.

(** C5: whenever the read primitive reports failure, [pread] returns -1
    and [errno] holds what it held before the call. *)
Theorem pread_read_failure p fd count offset :
  host_get_osfhandle (world p) fd ≠ NULL →
  success (reply p (host_get_osfhandle (world p) fd) count offset)
  = false →
  (pread fd count offset p).1 = -1
  ∧ errno (pread fd count offset p).2 = errno p.
Proof.
  intros Hh Hfail.
  rewrite (pread_open_handle p fd count offset Hh), Hfail.
  split; reflexivity.
Qed.

End Emulation.

(** ** Properties on the reference host *)

Section Reference.
Implicit Types (p : Process spec_host) (fd count offset : Z).
Implicit Types (f : FileObject) (h : HANDLE) (buf data : list byte).

Lemma bytes_at_length f pos n :
  0 ≤ n → Z.of_nat (length (bytes_at f pos n)) ≤ n.
Proof.
  intros Hn. unfold bytes_at. rewrite length_take. lia.
Qed.

Lemma bytes_at_eof f pos n :
  Z.of_nat (length (content f)) ≤ pos → bytes_at f pos n = [].
Proof.
  intros Heof. unfold bytes_at.
  rewrite drop_ge by lia. by rewrite take_nil.
Qed.

Lemma store_take data buf : take (length data) (store data buf) = data.
Proof. unfold store. by rewrite take_app_length. Qed.

Lemma store_store data buf : store data (store data buf) = store data buf.
Proof.
  unfold store. by rewrite drop_app_length.
Qed.

(** A positioned read never changes the host state. *)
Lemma native_read_positioned_host (w : Env) h buf n ov :
  host_after (native_read w h buf n (Some ov)) = w.
Proof.
  unfold native_read.
  destruct (objects w !! h) as [f|]; [destruct (read_access f)|];
    reflexivity.
Qed.

(** A positioned read asked again, with the buffer as the first answer
    left it, gives the same answer. *)
Lemma native_read_again (w : Env) h buf n ov :
  let r := native_read w h buf n (Some ov) in
  native_read w h (lpBuffer r) n (Some ov) = r.
Proof.
  unfold native_read.
  destruct (objects w !! h) as [f|]; [|reflexivity].
  destruct (read_access f); [|reflexivity].
  cbn. by rewrite store_store.
Qed.

(** A plain unpositioned read moves the sequential read position by the
    number of bytes it transfers. *)
Lemma native_read_unpositioned_advances (w : Env) h f buf n :
  objects w !! h = Some f → read_access f = true →
  objects (host_after (native_read w h buf n None)) !! h
  = Some (advance f (Z.of_nat (length (bytes_at f (cursor f) n)))).
Proof.
  intros Hf Hr. unfold native_read. rewrite Hf, Hr. cbn.
  apply lookup_insert_eq.
Qed.

(** The emulated read on an open, readable file: the bytes of the file
    from position [offset mod 2^32], at most [count mod 2^32] of them,
    land at the start of the buffer and their number is returned. *)
Lemma pread_open_readable p fd h f count offset :
  opened p fd h f → read_access f = true →
  let data := bytes_at f (offset mod 2 ^ 32) (count mod 2 ^ 32) in
  pread fd count offset p
  = (Z.of_nat (length data),
     {| errno := errno p; world := world p; buffer := store data (buffer p);
        calls := calls p ++ [Call_get_osfhandle fd;
                             Call_ReadFile h (to_DWORD count)
                                           (Some (overlap_for offset))] |}).
Proof.
  intros (Hfd & Hh & Hf) Hr data.
  assert (Hres : host_get_osfhandle (world p) fd = h).
  { cbn. unfold resolve. by rewrite Hfd. }
  pose proof (pread_open_handle p fd count offset) as Heq.
  cbv zeta in Heq. rewrite Hres in Heq. rewrite (Heq Hh). clear Heq.
  unfold reply. cbn [host_ReadFile spec_host]. unfold native_read.
  rewrite Hf, Hr, position_overlap_for. cbn [success lpNumberOfBytesRead
    lpBuffer host_after].
  change (bytes_at f (offset mod 2 ^ 32) (to_DWORD count)) with data.
  rewrite to_ssize_t_DWORD, to_DWORD_small; [reflexivity|].
  assert (Hn : 0 ≤ count mod 2 ^ 32 < 2 ^ 32)
    by (apply Z.mod_pos_bound; lia).
  pose proof (bytes_at_length f (offset mod 2 ^ 32) (count mod 2 ^ 32)
                (proj1 Hn)).
  subst data. lia.
Qed.

(** A descriptor whose handle is not null but names no file object: the
    read fails and -1 comes back, the buffer untouched. *)
Lemma pread_dangling_handle p fd count offset :
  let h := resolve (world p) fd in
  h ≠ NULL → objects (world p) !! h = None →
  (pread fd count offset p).1 = -1
  ∧ buffer (pread fd count offset p).2 = buffer p.
Proof.
  intros h Hh Hnone.
  rewrite (pread_open_handle p fd count offset Hh).
  unfold reply. cbn [host_ReadFile host_get_osfhandle spec_host].
  unfold native_read. fold h. rewrite Hnone. cbn. done.
Qed.

(** On the emulated path a call that reports success returns the number
    of bytes it stored, and that number is at most [count]. *)
Lemma pread_open_result_bound p fd h f count offset :
  opened p fd h f → read_access f = true → 0 ≤ count →
  let '(result, p') := pread fd count offset p in
  0 ≤ result ≤ count
  ∧ take (Z.to_nat result) (buffer p')
    = bytes_at f (offset mod 2 ^ 32) (count mod 2 ^ 32).
Proof.
  intros Hop Hr Hc. rewrite (pread_open_readable p fd h f count offset Hop Hr).
  cbn [buffer]. rewrite Nat2Z.id, store_take. split; [|done].
  assert (Hn : 0 ≤ count mod 2 ^ 32 < 2 ^ 32)
    by (apply Z.mod_pos_bound; lia).
  pose proof (bytes_at_length f (offset mod 2 ^ 32) (count mod 2 ^ 32)
                (proj1 Hn)).
  pose proof (to_DWORD_le count Hc) as Hle.
  unfold to_DWORD, DWORD_modulus in Hle. lia.
Qed.

(** C1 (as amended): on a descriptor open for reading, a call whose
    offset, reduced to the 32 bits [pread] hands to the host, lies at or
    beyond the end of the file returns 0 and leaves the buffer as it
    was.  Every offset with end-of-file <= offset < 2^32 is such an
    offset. *)
Theorem pread_at_eof p fd h f count offset :
  opened p fd h f → read_access f = true →
  Z.of_nat (length (content f)) ≤ offset mod 2 ^ 32 →
  (pread fd count offset p).1 = 0
  ∧ buffer (pread fd count offset p).2 = buffer p.
Proof.
  intros Hop Hr Heof.
  rewrite (pread_open_readable p fd h f count offset Hop Hr).
  rewrite (bytes_at_eof f _ _ Heof). cbn. split; [done|].
  unfold store. cbn. by rewrite drop_0.
Qed.

(** C6: a call leaves the host state as it found it, so the sequential
    read position of every file object is unchanged, and [errno] with it;
    what the call issues to the host is the descriptor lookup and at most
    one read request, which carries a position record.  Nothing else is
    called, no allocator among it. *)
Theorem pread_frame p fd count offset :
  let p' := (pread fd count offset p).2 in
  world p' = world p
  ∧ errno p' = errno p
  ∧ (∀ h f, objects (world p) !! h = Some f →
            ∃ f', objects (world p') !! h = Some f' ∧ cursor f' = cursor f)
  ∧ (calls p' = calls p ++ [Call_get_osfhandle fd]
     ∨ ∃ h n ov, calls p' = calls p ++ [Call_get_osfhandle fd;
                                        Call_ReadFile h n (Some ov)]).
Proof.
  intros p'.
  assert (Hw : world p' = world p ∧ errno p' = errno p
               ∧ (calls p' = calls p ++ [Call_get_osfhandle fd]
                  ∨ ∃ h n ov, calls p' = calls p ++
                      [Call_get_osfhandle fd; Call_ReadFile h n (Some ov)])).
  { subst p'.
    destruct (decide (host_get_osfhandle (world p) fd = NULL)) as [Hn|Hn].
    - rewrite (pread_null_handle p fd count offset Hn). cbn. auto.
    - rewrite (pread_open_handle p fd count offset Hn). cbn [snd world errno].
      unfold reply. cbn [host_ReadFile spec_host].
      rewrite native_read_positioned_host. cbn. eauto 8. }
  destruct Hw as (Hw & He & Hc). repeat split; [done|done| |done].
  intros h f Hf. exists f. by rewrite Hw.
Qed.

(** C7: the scenario of the specification.  On a descriptor open for
    reading on the ten bytes ABCDEFGHIJ and a buffer of four bytes, the
    three calls in turn give 4 with DEFG in the buffer, 2 with IJ in its
    first two bytes, and 0. *)
Theorem pread_scenario p fd h f :
  opened p fd h f → read_access f = true →
  content f = String.list_byte_of_string "ABCDEFGHIJ" →
  length (buffer p) = 4%nat →
  let '(r1, p1) := pread fd 4 3 p in
  let '(r2, p2) := pread fd 4 8 p1 in
  let '(r3, p3) := pread fd 4 10 p2 in
  r1 = 4 ∧ buffer p1 = String.list_byte_of_string "DEFG"
  ∧ r2 = 2 ∧ take 2 (buffer p2) = String.list_byte_of_string "IJ"
  ∧ r3 = 0.
Proof.
  intros Hop Hr Hc Hlen.
  destruct p as [e w buf cs]. cbn in Hlen.
  do 5 (destruct buf as [|? buf]; try discriminate Hlen). clear Hlen.
  rewrite (pread_open_readable _ fd h f 4 3 Hop Hr).
  match goal with
  | |- context [pread fd 4 8 ?q] =>
      rewrite (pread_open_readable q fd h f 4 8 Hop Hr)
  end.
  match goal with
  | |- context [pread fd 4 10 ?q] =>
      rewrite (pread_open_readable q fd h f 4 10 Hop Hr)
  end.
  unfold bytes_at. rewrite Hc. cbn. done.
Qed.

(** C8: a second call with the same arguments, made right after the
    first on the file as it was, returns the same result and leaves the
    buffer as the first call left it. *)
Theorem pread_idempotent p fd count offset :
  let '(r1, p1) := pread fd count offset p in
  let '(r2, p2) := pread fd count offset p1 in
  r2 = r1 ∧ buffer p2 = buffer p1 ∧ world p1 = world p.
Proof.
  destruct (decide (host_get_osfhandle (world p) fd = NULL)) as [Hn|Hn].
  - rewrite (pread_null_handle p fd count offset Hn).
    rewrite pread_null_handle by exact Hn. done.
  - rewrite (pread_open_handle p fd count offset Hn).
    set (h := host_get_osfhandle (world p) fd) in *.
    set (r := reply p h count offset).
    set (p1 := mkProcess _ _ _ _).
    assert (Hw : world p1 = world p)
      by apply native_read_positioned_host.
    assert (Hn1 : host_get_osfhandle (world p1) fd ≠ NULL)
      by (by rewrite Hw).
    rewrite (pread_open_handle p1 fd count offset Hn1).
    rewrite Hw. fold h.
    assert (Hr : reply p1 h count offset = r).
    { unfold reply. rewrite Hw. apply native_read_again. }
    rewrite Hr. done.
Qed.

End Reference.

(** ** The properties at work on concrete processes *)

Section Instances.

(** C1, as stated, fails at offset 2^32 + 3.
    An offset beyond the end of the ten-byte file whose low 32 bits lie
    inside it: the call on the open, readable descriptor 3 returns 4 and
    stores DEFG, where a read at or beyond end-of-file would return 0. *)
Lemma pread_eof_wrapped_offset :
  let p := scenario buf4 in
  let offset := 2 ^ 32 + 3 in
  opened p 3 420 ten_bytes ∧ read_access ten_bytes = true
  ∧ Z.of_nat (length (content ten_bytes)) ≤ offset
  ∧ (pread 3 4 offset p).1 = 4
  ∧ buffer (pread 3 4 offset p).2 = String.list_byte_of_string "DEFG"
  ∧ ¬ ((pread 3 4 offset p).1 = 0
       ∧ buffer (pread 3 4 offset p).2 = buffer p).
Proof.
  cbv zeta. repeat split; try (vm_compute; congruence).
  intros [H _]. vm_compute in H. discriminate H.
Qed.

(** C1, witness: offset 10, the end of the ten-byte file. *)
Lemma pread_at_eof_witness :
  let p := scenario buf4 in
  (opened p 3 420 ten_bytes ∧ read_access ten_bytes = true
   ∧ Z.of_nat (length (content ten_bytes)) ≤ 10 mod 2 ^ 32)
  ∧ (pread 3 4 10 p).1 = 0
  ∧ buffer (pread 3 4 10 p).2 = buffer p.
Proof.
  cbv zeta.
  assert (Hop : opened (scenario buf4) 3 420 ten_bytes)
    by (repeat split; vm_compute; congruence).
  assert (Heof : Z.of_nat (length (content ten_bytes)) ≤ 10 mod 2 ^ 32)
    by (vm_compute; congruence).
  split; [repeat split; [apply Hop..|exact Heof]|].
  exact (pread_at_eof (scenario buf4) 3 420 ten_bytes 4 10 Hop eq_refl Heof).
Defined.

(** C2: descriptor 3 of [null_scenario] resolves to the null handle and
    no file object stands behind it; the call returns 4294967295, which
    is not negative. *)
Theorem pread_unresolved_null_handle :
  let p := null_scenario buf4 in
  host_get_osfhandle (world p) 3 = NULL
  ∧ objects (world p) !! host_get_osfhandle (world p) 3 = None
  ∧ (pread 3 4 0 p).1 = 4294967295
  ∧ ¬ (pread 3 4 0 p).1 < 0.
Proof.
  cbv zeta. repeat split; try (vm_compute; congruence).
Qed.

(** C3, as stated, fails at offset 2^32 + 3.
    With the offset 2^32 + 3 the request on handle 420 carries position
    3: [OffsetHigh] is 0 and the position record does not hold the
    requested offset. *)
Lemma pread_request_drops_high_offset :
  let p := scenario buf4 in
  let offset := 2 ^ 32 + 3 in
  host_get_osfhandle (world p) 3 ≠ NULL
  ∧ ∃ ov, calls (pread 3 4 offset p).2
          = [Call_get_osfhandle 3; Call_ReadFile 420 4 (Some ov)]
          ∧ Offset ov = 3 ∧ OffsetHigh ov = 0
          ∧ position ov ≠ offset.
Proof.
  cbv zeta. split; [vm_compute; congruence|].
  exists (overlap_for 3). repeat split; vm_compute; congruence.
Qed.

(** C3, witness: offset 8 on the open descriptor 3. *)
Lemma pread_request_position_witness :
  let p := scenario buf4 in
  host_get_osfhandle (world p) 3 ≠ NULL
  ∧ ∃ ov,
      calls (pread 3 4 8 p).2
      = calls p ++ [Call_get_osfhandle 3;
                    Call_ReadFile (host_get_osfhandle (world p) 3)
                                  (to_DWORD 4) (Some ov)]
      ∧ Internal ov = 0 ∧ InternalHigh ov = 0 ∧ hEvent ov = NULL
      ∧ Offset ov = 8 mod 2 ^ 32 ∧ OffsetHigh ov = 0
      ∧ position ov = 8 mod 2 ^ 32
      ∧ (0 ≤ 8 < 2 ^ 32 → position ov = 8).
Proof.
  cbv zeta.
  assert (Hh : host_get_osfhandle (world (scenario buf4)) 3 ≠ NULL)
    by (vm_compute; congruence).
  split; [exact Hh|].
  exact (pread_request_position (scenario buf4) 3 4 8 Hh).
Defined.

(** C4: on the null handle the call returns 4294967295 for a [count] of
    4: a non-negative result that exceeds [count], with no read requested
    and no byte stored. *)
Theorem pread_null_handle_exceeds_count :
  let '(result, p') := pread 3 4 0 (null_scenario buf4) in
  0 ≤ result ∧ ¬ result ≤ 4
  ∧ reads (calls p') = [] ∧ buffer p' = buf4.
Proof.
  vm_compute. repeat split; congruence.
Qed.

(** C5, witness: descriptor 5 is not open, its handle names no file object
    and the read fails. *)
Lemma pread_read_failure_witness :
  let p := scenario buf4 in
  (host_get_osfhandle (world p) 5 ≠ NULL
   ∧ success (reply p (host_get_osfhandle (world p) 5) 4 0) = false)
  ∧ (pread 5 4 0 p).1 = -1
  ∧ errno (pread 5 4 0 p).2 = errno p.
Proof.
  cbv zeta.
  assert (Hh : host_get_osfhandle (world (scenario buf4)) 5 ≠ NULL)
    by (vm_compute; congruence).
  split; [split; [exact Hh|reflexivity]|].
  exact (pread_read_failure (scenario buf4) 5 4 0 Hh eq_refl).
Defined.

(** C7, witness: the scenario itself. *)
Lemma pread_scenario_witness :
  let p := scenario buf4 in
  (opened p 3 420 ten_bytes ∧ read_access ten_bytes = true
   ∧ content ten_bytes = String.list_byte_of_string "ABCDEFGHIJ"
   ∧ length (buffer p) = 4%nat)
  ∧ let '(r1, p1) := pread 3 4 3 p in
    let '(r2, p2) := pread 3 4 8 p1 in
    let '(r3, p3) := pread 3 4 10 p2 in
    r1 = 4 ∧ buffer p1 = String.list_byte_of_string "DEFG"
    ∧ r2 = 2 ∧ take 2 (buffer p2) = String.list_byte_of_string "IJ"
    ∧ r3 = 0.
Proof.
  cbv zeta.
  assert (Hop : opened (scenario buf4) 3 420 ten_bytes)
    by (repeat split; vm_compute; congruence).
  split; [repeat split; [apply Hop..]|].
  exact (pread_scenario (scenario buf4) 3 420 ten_bytes Hop eq_refl eq_refl
                        eq_refl).
Defined.

(** C9, witness: a count of 2^32 + 4 asks the host for 4 bytes. *)
Lemma pread_requested_count_witness :
  let p := scenario buf4 in
  let count := 2 ^ 32 + 4 in
  host_get_osfhandle (world p) 3 ≠ NULL
  ∧ map (λ r, r.1.2) (reads (calls (pread 3 count 3 p).2))
    = map (λ r, r.1.2) (reads (calls p)) ++ [count mod 2 ^ 32]
  ∧ (2 ^ 32 ≤ count → count mod 2 ^ 32 < count).
Proof.
  cbv zeta.
  assert (Hh : host_get_osfhandle (world (scenario buf4)) 3 ≠ NULL)
    by (vm_compute; congruence).
  split; [exact Hh|].
  exact (pread_requested_count (scenario buf4) 3 (2 ^ 32 + 4) 3 Hh).
Defined.

(** C10, witness: descriptor 3 of [null_scenario]. *)
Lemma pread_null_handle_result_witness :
  let p := null_scenario buf4 in
  host_get_osfhandle (world p) 3 = NULL
  ∧ let '(result, p') := pread 3 4 0 p in
    reads (calls p') = reads (calls p)
    ∧ buffer p' = buffer p ∧ world p' = world p
    ∧ result = to_ssize_t (to_DWORD (-1))
    ∧ result = 4294967295 ∧ 0 < result.
Proof.
  cbv zeta. split; [reflexivity|].
  exact (pread_null_handle_result (null_scenario buf4) 3 4 0 eq_refl).
Defined.

End Instances.


(** ** What a caller can rely on, for every host *)

Section Results.
Context {host : Host}.
Implicit Types (p : Process host) (fd count offset : Z).

Lemma to_DWORD_add_multiple (z k : Z) : to_DWORD (z + k * 2 ^ 32) = to_DWORD z.
Proof. unfold to_DWORD, DWORD_modulus. apply Z.mod_add. lia. Qed.

Lemma overlap_for_add_multiple (offset k : Z) :
  overlap_for (offset + k * 2 ^ 32) = overlap_for offset.
Proof.
  rewrite !overlap_for_fields. f_equal.
  apply (to_DWORD_add_multiple offset k).
Qed.

(** X1: whatever the host answers, the value [pread] returns is -1 or a
    32-bit unsigned number; no call reports 2^32 bytes or more, and no
    negative value other than -1 comes back. *)
Theorem pread_result_range p fd count offset :
  (pread fd count offset p).1 = -1
  ∨ 0 ≤ (pread fd count offset p).1 < 2 ^ 32.
Proof.
  destruct (decide (host_get_osfhandle (world p) fd = NULL)) as [Hn|Hn].
  - rewrite (pread_null_handle p fd count offset Hn). cbn [fst].
    rewrite initial_ret_returned. right. lia.
  - rewrite (pread_open_handle p fd count offset Hn). cbn [fst].
    destruct (success _).
    + right. rewrite to_ssize_t_DWORD. apply to_DWORD_range.
    + left. reflexivity.
Qed.

(** X2: the result is negative exactly when the descriptor resolved to a
    non-null handle and the read primitive, called on it, reported
    failure.  A null handle never gives a negative result. *)
Theorem pread_negative_iff_read_failed p fd count offset :
  (pread fd count offset p).1 < 0
  ↔ host_get_osfhandle (world p) fd ≠ NULL
    ∧ success (reply p (host_get_osfhandle (world p) fd) count offset)
      = false.
Proof.
  destruct (decide (host_get_osfhandle (world p) fd = NULL)) as [Hn|Hn].
  - rewrite (pread_null_handle p fd count offset Hn). cbn [fst].
    rewrite initial_ret_returned. split; [lia|]. intros [Hne _]. done.
  - rewrite (pread_open_handle p fd count offset Hn). cbn [fst].
    destruct (success _) eqn:Hs.
    + rewrite to_ssize_t_DWORD.
      pose proof (to_DWORD_range
                    (lpNumberOfBytesRead
                       (reply p (host_get_osfhandle (world p) fd)
                              count offset))).
      split; [lia|]. intros [_ Hf]. discriminate Hf.
    + split; [done|]. intros _. change (to_ssize_t (-1)) with (-1). lia.
Qed.

(** X3: a call depends on [count] and on [offset] through their low 32
    bits only: adding any multiple of 2^32 to either, negative multiples
    included, gives the same result, the same buffer and the same host
    calls. *)
Theorem pread_arguments_wrap p fd count offset (a b : Z) :
  pread fd (count + a * 2 ^ 32) (offset + b * 2 ^ 32) p
  = pread fd count offset p.
Proof.
  destruct (decide (host_get_osfhandle (world p) fd = NULL)) as [Hn|Hn].
  - by rewrite !pread_null_handle.
  - rewrite (pread_open_handle p fd (count + a * 2 ^ 32)
                               (offset + b * 2 ^ 32) Hn).
    rewrite (pread_open_handle p fd count offset Hn).
    unfold reply.
    by rewrite to_DWORD_add_multiple, overlap_for_add_multiple.
Qed.

End Results.

(** ** What a caller observes on the reference host *)

Section Observed.
Implicit Types (p : Process spec_host) (fd count offset : Z).
Implicit Types (f : FileObject) (h : HANDLE).

Lemma bytes_at_length_eq f pos n :
  0 ≤ pos → 0 ≤ n →
  Z.of_nat (length (bytes_at f pos n))
  = Z.max 0 (Z.min n (Z.of_nat (length (content f)) - pos)).
Proof.
  intros Hpos Hn. unfold bytes_at. rewrite length_take, length_drop. lia.
Qed.

Lemma take_length_take (l : list byte) (n : nat) :
  take (length (take n l)) l = take n l.
Proof.
  rewrite length_take. destruct (Nat.le_gt_cases n (length l)) as [Hle|Hgt].
  - by rewrite Nat.min_l.
  - rewrite Nat.min_r by lia. rewrite !take_ge; [done|lia|lia].
Qed.

Lemma store_drop (data buf : list byte) :
  drop (length data) (store data buf) = drop (length data) buf.
Proof. unfold store. by rewrite drop_app_length. Qed.



(** X5: on a descriptor open for reading the result is the number of bytes
    the file holds from position [offset mod 2^32] on, capped at
    [count mod 2^32]; the buffer starts with exactly those bytes of the
    file, and what lies behind them in the buffer is left as it was. *)
Theorem pread_transfers p fd h f count offset :
  opened p fd h f → read_access f = true →
  let pos := offset mod 2 ^ 32 in
  let '(result, p') := pread fd count offset p in
  result = Z.max 0 (Z.min (count mod 2 ^ 32)
                          (Z.of_nat (length (content f)) - pos))
  ∧ take (Z.to_nat result) (buffer p')
    = take (Z.to_nat result) (drop (Z.to_nat pos) (content f))
  ∧ drop (Z.to_nat result) (buffer p')
    = drop (Z.to_nat result) (buffer p).
Proof.
  intros Hop Hr pos.
  rewrite (pread_open_readable p fd h f count offset Hop Hr).
  cbn [buffer]. rewrite Nat2Z.id, store_take, store_drop.
  assert (Hpos : 0 ≤ pos < 2 ^ 32) by (apply Z.mod_pos_bound; lia).
  assert (Hn : 0 ≤ count mod 2 ^ 32 < 2 ^ 32)
    by (apply Z.mod_pos_bound; lia).
  split; [apply bytes_at_length_eq; lia|]. split; [|done].
  fold pos. unfold bytes_at. by rewrite take_length_take.
Qed.

Lemma pread_transfers_witness :
  let p := scenario buf4 in
  (opened p 3 420 ten_bytes ∧ read_access ten_bytes = true)
  ∧ let pos := 8 mod 2 ^ 32 in
    let '(result, p') := pread 3 4 8 p in
    result = Z.max 0 (Z.min (4 mod 2 ^ 32)
                            (Z.of_nat (length (content ten_bytes)) - pos))
    ∧ take (Z.to_nat result) (buffer p')
      = take (Z.to_nat result) (drop (Z.to_nat pos) (content ten_bytes))
    ∧ drop (Z.to_nat result) (buffer p')
      = drop (Z.to_nat result) (buffer p).
Proof.
  cbv zeta.
  assert (Hop : opened (scenario buf4) 3 420 ten_bytes)
    by (repeat split; vm_compute; congruence).
  split; [split; [exact Hop|reflexivity]|].
  exact (pread_transfers (scenario buf4) 3 420 ten_bytes 4 8 Hop eq_refl).
Defined.

(** X6: a read that lies inside the file, with offset and count below
    2^32, is complete: the result is [count] and the first [count] bytes
    of the buffer are the bytes of the file at [offset, offset + count). *)
Theorem pread_inside_file p fd h f count offset :
  opened p fd h f → read_access f = true →
  0 ≤ offset < 2 ^ 32 → 0 ≤ count < 2 ^ 32 →
  offset + count ≤ Z.of_nat (length (content f)) →
  let '(result, p') := pread fd count offset p in
  result = count
  ∧ take (Z.to_nat count) (buffer p')
    = take (Z.to_nat count) (drop (Z.to_nat offset) (content f)).
Proof.
  intros Hop Hr Ho Hc Hin.
  rewrite (pread_open_readable p fd h f count offset Hop Hr).
  cbn [buffer]. rewrite !Z.mod_small by lia.
  pose proof (bytes_at_length_eq f offset count (proj1 Ho) (proj1 Hc))
    as Hlen.
  assert (Hfull : Z.of_nat (length (bytes_at f offset count)) = count)
    by lia.
  split; [exact Hfull|].
  rewrite <- Hfull at 1. rewrite Nat2Z.id. apply store_take.
Qed.

Lemma pread_inside_file_witness :
  let p := scenario buf4 in
  (opened p 3 420 ten_bytes ∧ read_access ten_bytes = true
   ∧ 0 ≤ 3 < 2 ^ 32 ∧ 0 ≤ 4 < 2 ^ 32
   ∧ 3 + 4 ≤ Z.of_nat (length (content ten_bytes)))
  ∧ let '(result, p') := pread 3 4 3 p in
    result = 4
    ∧ take (Z.to_nat 4) (buffer p')
      = take (Z.to_nat 4) (drop (Z.to_nat 3) (content ten_bytes)).
Proof.
  cbv zeta.
  assert (Hop : opened (scenario buf4) 3 420 ten_bytes)
    by (repeat split; vm_compute; congruence).
  assert (Ho : 0 ≤ 3 < 2 ^ 32) by lia.
  assert (Hc : 0 ≤ 4 < 2 ^ 32) by lia.
  assert (Hin : 3 + 4 ≤ Z.of_nat (length (content ten_bytes)))
    by (vm_compute; congruence).
  split; [repeat split; try apply Hop; try lia; exact Hin|].
  exact (pread_inside_file (scenario buf4) 3 420 ten_bytes 4 3 Hop eq_refl
                           Ho Hc Hin).
Defined.

End Observed.

(** ** Calls in sequence and the empty request *)

Section Composition.
Implicit Types (p : Process spec_host) (fd count offset : Z).
Implicit Types (f : FileObject) (h : HANDLE).

Lemma bytes_at_split f pos n m :
  0 ≤ pos → 0 ≤ n → 0 ≤ m →
  bytes_at f pos n ++ bytes_at f (pos + n) m = bytes_at f pos (n + m).
Proof.
  intros Hpos Hn Hm. unfold bytes_at.
  rewrite !Z2Nat.inj_add by lia. rewrite <- drop_drop.
  apply take_take_drop.
Qed.

(** X7: reading in two pieces is reading in one.  A call for [c1] bytes at
    [offset] followed by a call for [c2] bytes at [offset + c1] delivers,
    one after the other, the bytes a single call for [c1 + c2] bytes at
    [offset] delivers, and the two results add up to its result, as long
    as the offsets and counts stay below 2^32. *)
Theorem pread_in_two_pieces p fd h f c1 c2 offset :
  opened p fd h f → read_access f = true →
  0 ≤ offset → 0 ≤ c1 → 0 ≤ c2 →
  offset + c1 < 2 ^ 32 → c1 + c2 < 2 ^ 32 →
  let '(r1, p1) := pread fd c1 offset p in
  let '(r2, p2) := pread fd c2 (offset + c1) p1 in
  let '(r, q) := pread fd (c1 + c2) offset p in
  r1 + r2 = r
  ∧ take (Z.to_nat r1) (buffer p1) ++ take (Z.to_nat r2) (buffer p2)
    = take (Z.to_nat r) (buffer q).
Proof.
  intros Hop Hr Ho H1 H2 Hoc Hcc.
  rewrite (pread_open_readable p fd h f c1 offset Hop Hr).
  match goal with
  | |- context [pread fd c2 (offset + c1) ?q] =>
      rewrite (pread_open_readable q fd h f c2 (offset + c1) Hop Hr)
  end.
  rewrite (pread_open_readable p fd h f (c1 + c2) offset Hop Hr).
  cbn [buffer]. rewrite !Nat2Z.id, !store_take.
  rewrite !Z.mod_small by lia.
  pose proof (bytes_at_split f offset c1 c2 Ho H1 H2) as Hsplit.
  split; [|exact Hsplit].
  rewrite <- Hsplit, length_app. lia.
Qed.

Lemma pread_in_two_pieces_witness :
  let p := scenario buf4 in
  (opened p 3 420 ten_bytes ∧ read_access ten_bytes = true
   ∧ 0 ≤ 6 ∧ 0 ≤ 3 ∧ 0 ≤ 4 ∧ 6 + 3 < 2 ^ 32 ∧ 3 + 4 < 2 ^ 32)
  ∧ let '(r1, p1) := pread 3 3 6 p in
    let '(r2, p2) := pread 3 4 (6 + 3) p1 in
    let '(r, q) := pread 3 (3 + 4) 6 p in
    r1 + r2 = r
    ∧ take (Z.to_nat r1) (buffer p1) ++ take (Z.to_nat r2) (buffer p2)
      = take (Z.to_nat r) (buffer q).
Proof.
  cbv zeta.
  assert (Hop : opened (scenario buf4) 3 420 ten_bytes)
    by (repeat split; vm_compute; congruence).
  split; [repeat split; try apply Hop; lia|].
  exact (pread_in_two_pieces (scenario buf4) 3 420 ten_bytes 3 4 6 Hop eq_refl
           ltac:(lia) ltac:(lia) ltac:(lia) ltac:(lia) ltac:(lia)).
Defined.

(** X8: a [count] whose low 32 bits are zero, 0 itself or 2^32, is not
    short-circuited: the read is requested on the handle, for 0 bytes, and
    the call returns 0 with the buffer as it was, also where the file has
    bytes at the offset. *)
Theorem pread_empty_request p fd h f count offset :
  opened p fd h f → read_access f = true →
  count mod 2 ^ 32 = 0 →
  let '(result, p') := pread fd count offset p in
  result = 0 ∧ buffer p' = buffer p
  ∧ reads (calls p')
    = reads (calls p) ++ [(h, 0, Some (overlap_for offset))].
Proof.
  intros Hop Hr Hz.
  rewrite (pread_open_readable p fd h f count offset Hop Hr).
  unfold to_DWORD, DWORD_modulus. rewrite Hz.
  unfold bytes_at. cbn [Z.to_nat take length store app drop buffer calls].
  rewrite reads_app. done.
Qed.

Lemma pread_empty_request_witness :
  let p := scenario buf4 in
  (opened p 3 420 ten_bytes ∧ read_access ten_bytes = true
   ∧ 2 ^ 32 mod 2 ^ 32 = 0)
  ∧ let '(result, p') := pread 3 (2 ^ 32) 3 p in
    result = 0 ∧ buffer p' = buffer p
    ∧ reads (calls p')
      = reads (calls p) ++ [(420, 0, Some (overlap_for 3))].
Proof.
  cbv zeta.
  assert (Hop : opened (scenario buf4) 3 420 ten_bytes)
    by (repeat split; vm_compute; congruence).
  split; [repeat split; try apply Hop; reflexivity|].
  exact (pread_empty_request (scenario buf4) 3 420 ten_bytes (2 ^ 32) 3 Hop
                             eq_refl eq_refl).
Defined.

End Composition.
